(** * Vehicle service center (Bootcampmp2.cpp): model and verified properties

    The C++ program keeps a registry ([ServiceCenter]) of service
    appointments.  Appointments are heap objects created by [make_shared]
    and held by the registry through [shared_ptr]; each one carries a
    lifecycle state object that [progressState] replaces in place.

    The embedding below follows the source class by class.

    - [std::string] is [string], [double] is a primitive binary64 float,
      [int] is [Z] (only compared against the literals 1, 2 and 3).
    - The closed class hierarchies ([ServiceState], [Service]) are
      inductive types and virtual dispatch is a [match].
    - [Client] and [Service] objects have no member that is ever assigned
      after construction, so a [shared_ptr] to one of them is modelled by
      the value it points to.
    - [ServiceAppointment] objects are mutable and live in a store
      ([heap]); a [shared_ptr<ServiceAppointment>] is an address into it.
    - [cin] is the list of the input lines still to be read by [getline];
      [cout] and [cerr] are the lists of the texts written so far, one
      entry per executed output statement.
    - Code runs in a state-and-exception monad [M] over the [World].
      Dereferencing an address that was never allocated has no defined
      behaviour in C++ and is the outcome [Fault].
    - [appointmentMutex] and [cv] are not modelled: a single thread runs
      the program, so the [lock_guard] in each method always acquires the
      mutex on entry and releases it on exit. *)

From Stdlib Require Import Floats.PrimFloat Strings.Ascii.
From stdpp Require Import list strings.

(** ** Basic types *)

Abbreviation double := float (only parsing).

(** Address of a [ServiceAppointment] in the store. *)
Abbreviation ptr := nat (only parsing).

(** The text written by [std::endl] and by the escape [\n]. *)
Definition endl : string := String "010"%char EmptyString.

(** The exceptions the program throws, with the argument of their
    constructor. *)
Inductive exception : Type :=
  | runtime_error (msg : string)
  | invalid_argument (msg : string).

Definition what (e : exception) : string :=
  match e with
  | runtime_error msg => msg
  | invalid_argument msg => msg
  end.

(** ** class Client *)

Record Client : Type := mkClient {
  name : string;
  contact : string
}.

(** [Client::Client(name, contact)] *)
Definition Client_ctor (name0 contact0 : string) : Client :=
  {| name := name0; contact := contact0 |}.

Definition getName (this : Client) : string := name this.

(** ** class ServiceState and its three subclasses *)

Inductive ServiceState : Type :=
  | ScheduledState
  | InProgressState
  | CompletedState.

(** The virtual [ServiceState::getStatus]. *)
Definition ServiceState_getStatus (this : ServiceState) : string :=
  match this with
  | ScheduledState => "Scheduled"
  | InProgressState => "In Progress"
  | CompletedState => "Completed"
  end.

(** ** class Service and its two subclasses *)

(** The members declared in the base class [Service]. *)
Record ServiceBase : Type := mkServiceBase {
  serviceType : string;
  baseCost : double;
  partsRequired : list string
}.

Inductive Service : Type :=
  | OilChange (base : ServiceBase)
  | EngineRepair (base : ServiceBase) (repairType : string).

(** [Service::Service(type, cost)]: [partsRequired] is default-constructed. *)
Definition Service_ctor (type : string) (cost : double) : ServiceBase :=
  {| serviceType := type; baseCost := cost; partsRequired := [] |}.

Definition set_partsRequired (parts : list string) (b : ServiceBase)
  : ServiceBase :=
  {| serviceType := serviceType b; baseCost := baseCost b;
     partsRequired := parts |}.

(** [OilChange::OilChange()] *)
Definition OilChange_ctor : Service :=
  OilChange
    (set_partsRequired ["Oil Filter"; "Engine Oil"]
       (Service_ctor "Oil Change" 50.0%float)).

(** [EngineRepair::EngineRepair(type)] *)
Definition EngineRepair_ctor (type : string) : Service :=
  EngineRepair
    (set_partsRequired ["Engine Parts"; "Lubricants"]
       (Service_ctor "Engine Repair" 200.0%float))
    type.

(** The virtual [calculateCost] is not a [const] member, so it is a state
    transformer over the object it is called on: it returns the result and
    the object as the call leaves it. *)
Definition calculateCost (this : Service) : double * Service :=
  match this with
  | OilChange base => (baseCost base, this)
  | EngineRepair base _ => ((baseCost base * 1.5)%float, this)
  end.

(** The virtual [getDescription] is a [const] member. *)
Definition getDescription (this : Service) : string :=
  match this with
  | OilChange _ => "Standard Oil Change Service"
  | EngineRepair _ repairType => "Engine Repair: " +:+ repairType
  end.

(** ** class ServiceAppointment: the object *)

(** [main] declares the only [ServiceCenter] of the program; the back
    pointer stored in each appointment refers to it and is never read. *)
Inductive ServiceCenterRef : Type := TheServiceCenter.

Record ServiceAppointment : Type := mkServiceAppointment {
  client : Client;
  vehicleNumber : string;
  service : Service;
  scheduledDate : string;
  currentState : ServiceState;
  serviceCenter : ServiceCenterRef
}.

(** [ServiceAppointment::ServiceAppointment(client, vehicleNum, service,
    date, center)]: the body installs a fresh [ScheduledState]. *)
Definition ServiceAppointment_ctor (client0 : Client) (vehicleNum : string)
    (service0 : Service) (date : string) (center : ServiceCenterRef)
  : ServiceAppointment :=
  {| client := client0; vehicleNumber := vehicleNum; service := service0;
     scheduledDate := date; currentState := ScheduledState;
     serviceCenter := center |}.

(** The assignment [currentState = move(newState)]. *)
Definition assign_currentState (newState : ServiceState)
    (a : ServiceAppointment) : ServiceAppointment :=
  {| client := client a; vehicleNumber := vehicleNumber a;
     service := service a; scheduledDate := scheduledDate a;
     currentState := newState; serviceCenter := serviceCenter a |}.

(** ** class ServiceCenter: the object *)

Record ServiceCenter : Type := mkServiceCenter {
  appointments : list ptr;
  isOpen : bool
}.

(** [ServiceCenter::ServiceCenter()] *)
Definition ServiceCenter_ctor : ServiceCenter :=
  {| appointments := []; isOpen := true |}.

(** ** The world and the monad *)

Record World : Type := mkWorld {
  center : ServiceCenter;
  heap : list ServiceAppointment;
  cin : list string;
  cout : list string;
  cerr : list string
}.

Inductive Outcome (A : Type) : Type :=
  | Ret (a : A) (w : World)
  | Throw (e : exception) (w : World)
  | Fault.

Arguments Ret {A} a w.
Arguments Throw {A} e w.
Arguments Fault {A}.

Definition M (A : Type) : Type := World → Outcome A.

Definition ret {A : Type} (a : A) : M A := λ w, Ret a w.

Definition bind {A B : Type} (m : M A) (k : A → M B) : M B :=
  λ w, match m w with
       | Ret a w' => k a w'
       | Throw e w' => Throw e w'
       | Fault => Fault
       end.

Declare Scope cpp_scope.
Delimit Scope cpp_scope with cpp.
Notation "'let*' x ':=' m 'in' k" := (bind m (λ x, k))
  (at level 10, x name, m at level 100, k at level 200, only parsing)
  : cpp_scope.
Notation "m ';;' k" := (bind m (λ _, k))
  (at level 100, k at level 200, right associativity, only parsing)
  : cpp_scope.
Open Scope cpp_scope.

(** [throw e] *)
Definition throw {A : Type} (e : exception) : M A := λ w, Throw e w.

(** [try { body } catch (const exception& e) { handler }] *)
Definition try_catch {A : Type} (body : M A) (handler : exception → M A)
  : M A :=
  λ w, match body w with
       | Ret a w' => Ret a w'
       | Throw e w' => handler e w'
       | Fault => Fault
       end.

(** Assignments to one component of the world. *)
Definition set_center (c : ServiceCenter) (w : World) : World :=
  {| center := c; heap := heap w; cin := cin w; cout := cout w;
     cerr := cerr w |}.

Definition set_heap (h : list ServiceAppointment) (w : World) : World :=
  {| center := center w; heap := h; cin := cin w; cout := cout w;
     cerr := cerr w |}.

Definition set_cin (lines : list string) (w : World) : World :=
  {| center := center w; heap := heap w; cin := lines; cout := cout w;
     cerr := cerr w |}.

Definition set_cout (texts : list string) (w : World) : World :=
  {| center := center w; heap := heap w; cin := cin w; cout := texts;
     cerr := cerr w |}.

Definition set_cerr (texts : list string) (w : World) : World :=
  {| center := center w; heap := heap w; cin := cin w; cout := cout w;
     cerr := texts |}.

(** [cout << text] for the whole text of one output statement. *)
Definition print_cout (text : string) : M unit :=
  λ w, Ret tt (set_cout (cout w ++ [text]) w).

(** [cerr << text] *)
Definition print_cerr (text : string) : M unit :=
  λ w, Ret tt (set_cerr (cerr w ++ [text]) w).

(** [getline(cin, s)] into a freshly declared [s]: the next line, or the
    empty string once the input is exhausted. *)
Definition getline : M string :=
  λ w, match cin w with
       | [] => Ret EmptyString w
       | line :: rest => Ret line (set_cin rest w)
       end.

(** [*p] for a pointer to an appointment. *)
Definition deref (p : ptr) : M ServiceAppointment :=
  λ w, match heap w !! p with
       | Some a => Ret a w
       | None => Fault
       end.

(** [*p = a] *)
Definition store (p : ptr) (a : ServiceAppointment) : M unit :=
  λ w, match heap w !! p with
       | Some _ => Ret tt (set_heap (<[p := a]> (heap w)) w)
       | None => Fault
       end.

(** [make_shared<ServiceAppointment>(...)]: the object is placed at a
    fresh address. *)
Definition make_shared (a : ServiceAppointment) : M ptr :=
  λ w, Ret (length (heap w)) (set_heap (heap w ++ [a]) w).

(** Reading and extending the member [appointments] of the center. *)
Definition get_appointments : M (list ptr) :=
  λ w, Ret (appointments (center w)) w.

Definition push_back (p : ptr) : M unit :=
  λ w, Ret tt
         (set_center
            {| appointments := appointments (center w) ++ [p];
               isOpen := isOpen (center w) |} w).

(** ** Methods of Client and ServiceAppointment *)

(** [Client::update] *)
Definition update (this : Client) (message : string) : M unit :=
  print_cout ("Notification for " +:+ name this +:+ ": " +:+ message +:+ endl).

(** The two virtual member functions of [Service] as calls on an object.
    A call runs in the world monad, where a body can write to a stream,
    read the input, throw, or reach the registry and the store.
    [calculateCost] is not a [const] member: the call also returns the
    object as it leaves it.  [getDescription] is a [const] member and
    cannot assign to the members of its object.  The bodies are those of
    [OilChange] and [EngineRepair]. *)
Definition Service_calculateCost (this : Service) : M (double * Service) :=
  match this with
  | OilChange base => ret (baseCost base, this)
  | EngineRepair base _ => ret ((baseCost base * 1.5)%float, this)
  end.

Definition Service_getDescription (this : Service) : M string :=
  match this with
  | OilChange _ => ret "Standard Oil Change Service"
  | EngineRepair _ repairType => ret ("Engine Repair: " +:+ repairType)
  end.

(** [ServiceAppointment::setState] *)
Definition setState (this : ptr) (newState : ServiceState) : M unit :=
  let* a := deref this in
  store this (assign_currentState newState a).

(** The three overrides of [ServiceState::nextState]. *)
Definition ServiceState_nextState (this : ServiceState) (appointment : ptr)
  : M unit :=
  match this with
  | ScheduledState => setState appointment InProgressState
  | InProgressState => setState appointment CompletedState
  | CompletedState => ret tt
  end.

(** [ServiceAppointment::progressState] *)
Definition progressState (this : ptr) : M unit :=
  let* a := deref this in
  ServiceState_nextState (currentState a) this.

(** [ServiceAppointment::getStatus] *)
Definition getStatus (this : ptr) : M string :=
  let* a := deref this in
  ret (ServiceState_getStatus (currentState a)).

Definition getClient (this : ptr) : M Client :=
  let* a := deref this in ret (client a).

Definition getVehicleNumber (this : ptr) : M string :=
  let* a := deref this in ret (vehicleNumber a).

Definition getService (this : ptr) : M Service :=
  let* a := deref this in ret (service a).

Definition getScheduledDate (this : ptr) : M string :=
  let* a := deref this in ret (scheduledDate a).

(** ** Methods of ServiceCenter *)

Definition conflict_message : string :=
  "Scheduling conflict: Vehicle already has an appointment on this date".

(** The conflict loop of [addAppointment].  The operator [&&] evaluates
    its right operand only when the dates are equal. *)
Fixpoint check_conflicts (apts : list ptr) (vehicleNum date : string)
  : M unit :=
  match apts with
  | [] => ret tt
  | apt :: rest =>
      let* d := getScheduledDate apt in
      let* hit :=
        (if String.eqb d date
         then let* v := getVehicleNumber apt in ret (String.eqb v vehicleNum)
         else ret false) in
      if hit : bool
      then throw (runtime_error conflict_message)
      else check_conflicts rest vehicleNum date
  end.

(** [ServiceCenter::addAppointment] *)
Definition addAppointment (client0 : Client) (vehicleNum : string)
    (service0 : Service) (date : string) : M unit :=
  let* apts := get_appointments in
  check_conflicts apts vehicleNum date ;;
  let* appointment :=
    make_shared
      (ServiceAppointment_ctor client0 vehicleNum service0 date
         TheServiceCenter) in
  push_back appointment ;;
  update client0 ("Appointment scheduled for " +:+ date).

(** The text written for one appointment by [viewAppointments]. *)
Definition summary_text (vehicle clientName description date status : string)
  : string :=
  endl +:+ "Vehicle: " +:+ vehicle +:+
  endl +:+ "Client: " +:+ clientName +:+
  endl +:+ "Service: " +:+ description +:+
  endl +:+ "Date: " +:+ date +:+
  endl +:+ "Status: " +:+ status +:+ endl.

Fixpoint view_loop (apts : list ptr) : M unit :=
  match apts with
  | [] => ret tt
  | apt :: rest =>
      let* vehicle := getVehicleNumber apt in
      let* c := getClient apt in
      let* s := getService apt in
      let* description := Service_getDescription s in
      let* date := getScheduledDate apt in
      let* status := getStatus apt in
      print_cout
        (summary_text vehicle (getName c) description date status) ;;
      view_loop rest
  end.

(** [ServiceCenter::viewAppointments] *)
Definition viewAppointments : M unit :=
  let* apts := get_appointments in
  view_loop apts.

(** ** The interactive loop of main *)

(** The branch [option == 1] of the loop body. *)
Definition schedule_flow : M unit :=
  print_cout "Enter client name: " ;;
  let* clientName := getline in
  print_cout "Enter contact number: " ;;
  let* contact0 := getline in
  print_cout "Enter vehicle number: " ;;
  let* vehicleNum := getline in
  print_cout "Enter appointment date (DD-MM-YYYY): " ;;
  let* date := getline in
  print_cout "Enter service type (oil/engine): " ;;
  let* serviceType0 := getline in
  let client0 := Client_ctor clientName contact0 in
  let* service0 :=
    (if String.eqb serviceType0 "oil"
     then ret OilChange_ctor
     else if String.eqb serviceType0 "engine"
     then print_cout "Enter engine repair type: " ;;
          let* repairType := getline in
          ret (EngineRepair_ctor repairType)
     else throw (invalid_argument "Invalid service type")) in
  addAppointment client0 vehicleNum service0 date ;;
  print_cout ("Appointment scheduled successfully!" +:+ endl).

Inductive LoopControl : Type := Continue | Break.

Definition menu_text : string :=
  endl +:+ "Vehicle Service Center Management" +:+ endl +:+
  "1. Schedule New Appointment" +:+ endl +:+
  "2. View Appointments" +:+ endl +:+
  "3. Exit" +:+ endl +:+
  "Enter your choice: ".

(** One iteration of [while (true)].  The extraction [cin >> option]
    followed by [cin.ignore()] is not modelled: the iteration takes the
    number that was read, and [cin] holds the lines that follow it. *)
Definition main_iteration (option : Z) : M LoopControl :=
  print_cout menu_text ;;
  try_catch
    (if (option =? 1)%Z then schedule_flow ;; ret Continue
     else if (option =? 2)%Z then viewAppointments ;; ret Continue
     else if (option =? 3)%Z
     then print_cout ("Exiting system..." +:+ endl) ;; ret Break
     else print_cout ("Invalid option!" +:+ endl) ;; ret Continue)
    (λ e, print_cerr ("Error: " +:+ what e +:+ endl) ;; ret Continue).

(** The world in which [main] starts on the input lines [input]. *)
Definition initial_world (input : list string) : World :=
  {| center := ServiceCenter_ctor; heap := []; cin := input; cout := [];
     cerr := [] |}.


(** ** Calling a method several times *)

Fixpoint repeat_call (n : nat) (m : M unit) : M unit :=
  match n with
  | O => ret tt
  | S n' => m ;; repeat_call n' m
  end.

(** [n] rounds of calls on the same object, each round a call of
    [calculateCost] followed by a call of [getDescription] on the object
    as the previous call left it: the results in call order, and the
    object after the last call. *)
Fixpoint Service_calls (n : nat) (this : Service)
  : M (list (double * string) * Service) :=
  match n with
  | O => ret ([], this)
  | S n' =>
      let* r := Service_calculateCost this in
      let* description := Service_getDescription (snd r) in
      let* rest := Service_calls n' (snd r) in
      ret ((fst r, description) :: fst rest, snd rest)
  end.

(** ** Vocabulary of the specification *)

(** The appointments the registry holds, in vector order; [None] when a
    stored pointer is not allocated. *)
Definition stored (w : World) : option (list ServiceAppointment) :=
  mapM (λ p, heap w !! p) (appointments (center w)).

(** The pair that must be unique in the registry. *)
Definition key (a : ServiceAppointment) : string * string :=
  (vehicleNumber a, scheduledDate a).

(** What was requested when the appointment was scheduled. *)
Definition booking (a : ServiceAppointment)
  : Client * string * Service * string :=
  (client a, vehicleNumber a, service a, scheduledDate a).

(** The condition tested by the loop of [addAppointment]. *)
Definition collides (vehicleNum date : string) (a : ServiceAppointment)
  : bool :=
  String.eqb (scheduledDate a) date && String.eqb (vehicleNumber a) vehicleNum.

(** The text [viewAppointments] writes for the appointment [a]. *)
Definition summary (a : ServiceAppointment) : string :=
  summary_text (vehicleNumber a) (name (client a))
    (getDescription (service a)) (scheduledDate a)
    (ServiceState_getStatus (currentState a)).

(** The text [Client::update] writes for the message of [addAppointment]. *)
Definition notification (c : Client) (date : string) : string :=
  "Notification for " +:+ name c +:+ ": " +:+
  ("Appointment scheduled for " +:+ date) +:+ endl.

(** The world a successful [addAppointment] leaves behind. *)
Definition after_scheduling (c : Client) (vehicleNum : string) (s : Service)
    (date : string) (w : World) : World :=
  set_cout (cout w ++ [notification c date])
    (set_center
       {| appointments := appointments (center w) ++ [length (heap w)];
          isOpen := isOpen (center w) |}
       (set_heap
          (heap w ++
             [ServiceAppointment_ctor c vehicleNum s date TheServiceCenter])
          w)).

(** The registry holds valid pointers to appointments that were booked as
    [acc] lists, in that order, and that have pairwise distinct keys. *)
Definition registry_inv (acc : list (Client * string * Service * string))
    (w : World) : Prop :=
  ∃ l, stored w = Some l ∧ map booking l = acc ∧ NoDup (map key l).

(** The prompts [schedule_flow] writes before it looks at the service
    type. *)
Definition prompts : list string :=
  [ "Enter client name: "; "Enter contact number: ";
    "Enter vehicle number: "; "Enter appointment date (DD-MM-YYYY): ";
    "Enter service type (oil/engine): " ].

(** Position of a state in the lifecycle. *)
Definition stage (s : ServiceState) : nat :=
  match s with
  | ScheduledState => 0
  | InProgressState => 1
  | CompletedState => 2
  end.

(** The state installed by [nextState] when called on the state [s]. *)
Definition successor (s : ServiceState) : ServiceState :=
  match s with
  | ScheduledState => InProgressState
  | InProgressState => CompletedState
  | CompletedState => CompletedState
  end.

(** Calls made on the registry and on its appointments, with their
    outcome. *)
Inductive Event : Type :=
  | EvAccepted (c : Client) (vehicleNum : string) (s : Service) (date : string)
  | EvRejected (c : Client) (vehicleNum : string) (s : Service) (date : string)
  | EvProgress (p : ptr)
  | EvView.

Inductive step : World → Event → World → Prop :=
  | step_accepted c v s d w w' :
      addAppointment c v s d w = Ret tt w' →
      step w (EvAccepted c v s d) w'
  | step_rejected c v s d e w w' :
      addAppointment c v s d w = Throw e w' →
      step w (EvRejected c v s d) w'
  | step_progress p w w' :
      progressState p w = Ret tt w' →
      step w (EvProgress p) w'
  | step_view w w' :
      viewAppointments w = Ret tt w' →
      step w EvView w'.

Inductive trace : World → list Event → World → Prop :=
  | trace_nil w : trace w [] w
  | trace_cons w ev w1 evs w2 :
      step w ev w1 → trace w1 evs w2 → trace w (ev :: evs) w2.

(** The requests of the successful [addAppointment] calls, in call order. *)
Fixpoint accepted (evs : list Event)
  : list (Client * string * Service * string) :=
  match evs with
  | [] => []
  | EvAccepted c v s d :: rest => (c, v, s, d) :: accepted rest
  | _ :: rest => accepted rest
  end.

(** ** The scenario of the specification *)

Definition Alice : Client := Client_ctor "Alice" "555-0100".
Definition Bob : Client := Client_ctor "Bob" "555-0199".

(** The world left by an outcome; [w] when there is none. *)
Definition outcome_world {A : Type} (o : Outcome A) (w : World) : World :=
  match o with
  | Ret _ w' => w'
  | Throw _ w' => w'
  | Fault => w
  end.

(** Alice's car is booked. *)
Definition booked_world : World :=
  outcome_world
    (addAppointment Alice "KA01" OilChange_ctor "01-01-2025"
       (initial_world []))
    (initial_world []).

(** Alice books, Bob asks for the same car on the same day and then for
    the day after, work starts on Alice's car, and the list is shown. *)
Definition scenario : list Event :=
  [ EvAccepted Alice "KA01" OilChange_ctor "01-01-2025";
    EvRejected Bob "KA01" OilChange_ctor "01-01-2025";
    EvAccepted Bob "KA01" (EngineRepair_ctor "gasket") "02-01-2025";
    EvProgress 0;
    EvView ].

Definition scenario_world : World :=
  outcome_world
    ((addAppointment Alice "KA01" OilChange_ctor "01-01-2025" ;;
      try_catch (addAppointment Bob "KA01" OilChange_ctor "01-01-2025")
        (λ _, ret tt) ;;
      addAppointment Bob "KA01" (EngineRepair_ctor "gasket") "02-01-2025" ;;
      progressState 0 ;;
      viewAppointments) (initial_world []))
    (initial_world []).

(** The input of a request for a service the center does not offer. *)
Definition bike_input : list string :=
  ["Carol"; "555-0123"; "KA02"; "03-01-2025"; "bike"].

(** ** The loop of main *)

(** [while (true)] run on the numbers that the successive extractions
    [cin >> option] deliver.  The result is [Some 0], the value returned by
    [main], when the loop was left by [break]; it is [None] when the
    numbers are used up and the loop has not been left. *)
Fixpoint main_loop (options : list Z) : M (option Z) :=
  match options with
  | [] => ret None
  | option :: rest =>
      let* control := main_iteration option in
      match control with
      | Break => ret (Some 0%Z)
      | Continue => main_loop rest
      end
  end.

(** [main], started on the input lines [input]. *)
Definition main (options : list Z) (input : list string)
  : Outcome (option Z) :=
  main_loop options (initial_world input).

(** Texts written by the schedule flow after the service type is read. *)
Definition engine_prompt : string := "Enter engine repair type: ".

Definition success_text : string :=
  "Appointment scheduled successfully!" +:+ endl.

(** A session: Dave books an engine repair, Erin asks for the same car on
    the same day, the list is shown, an unknown option is typed, and the
    program is left. *)
Definition session_options : list Z := [1; 1; 2; 7; 3]%Z.

Definition session_input : list string :=
  [ "Dave"; "555-0142"; "KA07"; "05-01-2025"; "engine"; "head gasket";
    "Erin"; "555-0177"; "KA07"; "05-01-2025"; "oil" ].

(** * Properties *)

(** ** The store and the registry *)

Lemma set_heap_same w : set_heap (heap w) w = w.
Proof. by destruct w. Qed.

Lemma assign_currentState_same a :
  assign_currentState (currentState a) a = a.
Proof. by destruct a. Qed.

Lemma booking_assign s a : booking (assign_currentState s a) = booking a.
Proof. reflexivity. Qed.

Lemma map_key_booking l l' :
  map booking l' = map booking l → map key l' = map key l.
Proof.
  intros Hb.
  assert (∀ k, map key k = map (λ b, (b.1.1.2, b.2)) (map booking k)) as Hk.
  { intros k. rewrite map_map. by apply map_ext. }
  by rewrite !Hk, Hb.
Qed.

Lemma stored_Forall2 w l :
  stored w = Some l ↔
  Forall2 (λ p a, heap w !! p = Some a) (appointments (center w)) l.
Proof. unfold stored. apply mapM_Some. Qed.

Lemma collides_true v d a :
  collides v d a = true ↔ vehicleNumber a = v ∧ scheduledDate a = d.
Proof.
  unfold collides. rewrite andb_true_iff, !String.eqb_eq. tauto.
Qed.

Lemma existsb_collides v d l :
  existsb (collides v d) l = true ↔
  ∃ a, a ∈ l ∧ vehicleNumber a = v ∧ scheduledDate a = d.
Proof.
  rewrite existsb_exists. split.
  - intros (a & Hin & Hc). exists a. rewrite list_elem_of_In.
    by rewrite <- collides_true.
  - intros (a & Hin & Hc). exists a. rewrite <- list_elem_of_In.
    by rewrite collides_true.
Qed.

Lemma existsb_collides_key v d l :
  existsb (collides v d) l = false → (v, d) ∉ map key l.
Proof.
  intros Hex Hin. apply list_elem_of_fmap in Hin as (a & Hk & Hin).
  assert (existsb (collides v d) l = true) as Ht; [|congruence].
  apply existsb_collides. exists a. unfold key in Hk. by injection Hk as -> ->.
Qed.

Lemma append_empty_r (x : string) : x +:+ EmptyString = x.
Proof.
  induction x as [|ch x IH]; [done|].
  change (String ch (x +:+ EmptyString) = String ch x). by rewrite IH.
Qed.

Lemma substring_whole (x : string) :
  String.substring 0 (String.length x) x = x.
Proof. induction x as [|ch x IH]; [done|]. cbn. f_equal. exact IH. Qed.

(** ** The member functions of Service *)

Lemma Service_calculateCost_run s w :
  Service_calculateCost s w = Ret (calculateCost s) w.
Proof. by destruct s. Qed.

Lemma Service_getDescription_run s w :
  Service_getDescription s w = Ret (getDescription s) w.
Proof. by destruct s. Qed.

(** ** The loops *)

Lemma check_conflicts_spec apts l v d w :
  Forall2 (λ p a, heap w !! p = Some a) apts l →
  check_conflicts apts v d w =
    if existsb (collides v d) l
    then Throw (runtime_error conflict_message) w
    else Ret tt w.
Proof.
  induction 1 as [|p a apts l Hp _ IH]; [done|].
  cbn [check_conflicts existsb].
  unfold bind, getScheduledDate, getVehicleNumber, bind, deref, ret, collides
    in *.
  rewrite Hp. destruct (String.eqb (scheduledDate a) d); cbn [andb orb].
  - rewrite Hp. by destruct (String.eqb (vehicleNumber a) v).
  - done.
Qed.

Lemma view_loop_spec apts l w :
  Forall2 (λ p a, heap w !! p = Some a) apts l →
  view_loop apts w = Ret tt (set_cout (cout w ++ map summary l) w).
Proof.
  intros H. revert w H. revert l.
  induction apts as [|p apts IH]; intros l w H; inversion H as [|? a ? l' Hp Hrest]; subst.
  - cbn. rewrite app_nil_r. by destruct w.
  - cbn [view_loop].
    unfold bind, getVehicleNumber, getClient, getService, getScheduledDate,
      getStatus, bind, deref, ret, print_cout.
    repeat (rewrite ?Service_getDescription_run, Hp; cbv beta iota).
    rewrite (IH l'); [|done].
    cbn. by rewrite <- app_assoc.
Qed.

(** ** addAppointment *)

Lemma addAppointment_spec c v s d w l :
  stored w = Some l →
  addAppointment c v s d w =
    if existsb (collides v d) l
    then Throw (runtime_error conflict_message) w
    else Ret tt (after_scheduling c v s d w).
Proof.
  intros Hl%stored_Forall2. unfold addAppointment, bind, get_appointments.
  rewrite (check_conflicts_spec _ l) by done.
  by destruct (existsb (collides v d) l).
Qed.

Lemma stored_after_scheduling c v s d w l :
  stored w = Some l →
  stored (after_scheduling c v s d w) =
    Some (l ++ [ServiceAppointment_ctor c v s d TheServiceCenter]).
Proof.
  rewrite !stored_Forall2. intros Hl. cbn. apply Forall2_app.
  - eapply Forall2_impl; [exact Hl|]. intros p a Hp. cbn in Hp.
    by apply lookup_app_l_Some.
  - constructor; [|constructor]. by rewrite list_lookup_middle.
Qed.

(** ** progressState *)

Lemma progressState_spec p a w :
  heap w !! p = Some a →
  progressState p w =
    Ret tt (set_heap
              (<[p := assign_currentState (successor (currentState a)) a]>
                 (heap w)) w).
Proof.
  intros Hp. unfold progressState, bind, deref. rewrite Hp.
  destruct (currentState a) eqn:Hs; cbn [ServiceState_nextState successor].
  - unfold setState, bind, deref, store. by rewrite Hp, Hp.
  - unfold setState, bind, deref, store. by rewrite Hp, Hp.
  - unfold ret. rewrite <- Hs, assign_currentState_same.
    by rewrite list_insert_id, set_heap_same.
Qed.

Lemma repeat_progressState_spec n p a w :
  heap w !! p = Some a →
  repeat_call n (progressState p) w =
    Ret tt (set_heap
              (<[p := assign_currentState
                        (Nat.iter n successor (currentState a)) a]>
                 (heap w)) w).
Proof.
  revert a w. induction n as [|n IH]; intros a w Hp.
  - cbn. rewrite assign_currentState_same.
    by rewrite list_insert_id, set_heap_same.
  - cbn [repeat_call]. unfold bind. rewrite (progressState_spec p a) by done.
    erewrite IH; last first.
    { cbn. apply list_lookup_insert_eq. by eapply lookup_lt_Some. }
    cbn. rewrite list_insert_insert_eq. unfold set_heap. cbn.
    by rewrite <- Nat.iter_succ_r.
Qed.

Lemma stage_iter_successor n s :
  stage (Nat.iter n successor s) = Nat.min (stage s + n) 2.
Proof.
  induction n as [|n IH].
  - destruct s; reflexivity.
  - rewrite Nat.iter_succ.
    destruct (Nat.iter n successor s); cbn [successor stage] in *; lia.
Qed.

Lemma stored_after_update p a s w l :
  heap w !! p = Some a →
  stored w = Some l →
  ∃ l', stored (set_heap (<[p := assign_currentState s a]> (heap w)) w)
          = Some l' ∧
        map booking l' = map booking l.
Proof.
  intros Hp. unfold stored. cbn [center heap set_heap].
  generalize (appointments (center w)) as apts. intros apts. revert l.
  induction apts as [|q apts IH]; intros l Hl.
  - injection Hl as <-. by exists [].
  - apply mapM_Some in Hl. inversion Hl as [|? b ? l0 Hq Hrest]; subst.
    cbn beta in Hq.
    apply mapM_Some in Hrest. destruct (IH _ Hrest) as (l' & Hl' & Hb).
    destruct (decide (q = p)) as [->|Hne].
    + exists (assign_currentState s a :: l'). split.
      * apply mapM_Some. constructor.
        -- apply list_lookup_insert_eq. by eapply lookup_lt_Some.
        -- by apply mapM_Some.
      * cbn [map]. rewrite Hb, booking_assign. congruence.
    + exists (b :: l'). split.
      * apply mapM_Some. constructor.
        -- by rewrite list_lookup_insert_ne.
        -- by apply mapM_Some.
      * cbn. by rewrite Hb.
Qed.

(** ** Runs of the registry *)

Lemma accepted_cons ev evs : accepted (ev :: evs) = accepted [ev] ++ accepted evs.
Proof. by destruct ev. Qed.

Lemma registry_inv_initial input : registry_inv [] (initial_world input).
Proof. exists []. repeat split. constructor. Qed.

Lemma step_registry_inv acc w ev w' :
  registry_inv acc w → step w ev w' → registry_inv (acc ++ accepted [ev]) w'.
Proof.
  intros (l & Hl & Hacc & Hnd) Hstep.
  destruct Hstep as [c v s d w w' Hrun|c v s d e w w' Hrun|p w w' Hrun
                    |w w' Hrun]; cbn [accepted]; rewrite ?app_nil_r.
  - rewrite (addAppointment_spec _ _ _ _ _ l) in Hrun by done.
    destruct (existsb (collides v d) l) eqn:Hex; [done|].
    injection Hrun as <-.
    exists (l ++ [ServiceAppointment_ctor c v s d TheServiceCenter]).
    split; [by apply stored_after_scheduling|].
    split; [by rewrite map_app, Hacc|].
    rewrite map_app. apply NoDup_app. split; [done|]. split.
    + intros k Hk Hk'. apply list_elem_of_singleton in Hk'. subst k.
      by apply existsb_collides_key in Hex.
    + apply NoDup_singleton.
  - rewrite (addAppointment_spec _ _ _ _ _ l) in Hrun by done.
    destruct (existsb (collides v d) l); [|done].
    injection Hrun as _ <-. by exists l.
  - unfold progressState, bind, deref in Hrun.
    destruct (heap w !! p) as [a|] eqn:Hp; [|done].
    pose proof (progressState_spec p a w Hp) as Hspec.
    unfold progressState, bind, deref in Hspec. rewrite Hp in Hspec.
    rewrite Hspec in Hrun. injection Hrun as <-.
    destruct (stored_after_update p a (successor (currentState a)) w l Hp Hl)
      as (l' & Hl' & Hb).
    exists l'. split; [done|]. split; [congruence|].
    assert (map key l' = map key l) as ->; [|done].
    by apply map_key_booking.
  - unfold viewAppointments, bind, get_appointments in Hrun.
    apply stored_Forall2 in Hl as Hl2.
    rewrite (view_loop_spec _ l) in Hrun by done.
    injection Hrun as <-. by exists l.
Qed.

Lemma trace_registry_inv acc w evs w' :
  registry_inv acc w → trace w evs w' → registry_inv (acc ++ accepted evs) w'.
Proof.
  intros Hinv Htr. revert acc Hinv.
  induction Htr as [w|w ev w1 evs w2 Hstep _ IH]; intros acc Hinv.
  - by rewrite app_nil_r.
  - rewrite accepted_cons, app_assoc. apply IH.
    by eapply step_registry_inv.
Qed.

Lemma scenario_trace : trace (initial_world []) scenario scenario_world.
Proof.
  unfold scenario.
  repeat (eapply trace_cons; [econstructor; reflexivity|]).
  apply trace_nil.
Qed.

(** ** The schedule flow of main *)

Lemma schedule_flow_invalid w :
  String.eqb (nth 4 (cin w) EmptyString) "oil" = false →
  String.eqb (nth 4 (cin w) EmptyString) "engine" = false →
  schedule_flow w =
    Throw (invalid_argument "Invalid service type")
      (set_cin (drop 5 (cin w)) (set_cout (cout w ++ prompts) w)).
Proof.
  destruct w as [c h i o e]. cbn [cin cout].
  destruct i as [|l1 [|l2 [|l3 [|l4 [|l5 rest]]]]]; cbn [nth];
    intros Hoil Hengine;
    unfold schedule_flow, bind, print_cout, getline, throw, set_cout, set_cin;
    cbn [cin cout center heap cerr drop];
    rewrite ?Hoil, ?Hengine; rewrite <- !app_assoc; reflexivity.
Qed.

(** ** The scenario, evaluated *)

Example scenario_registry :
  appointments (center scenario_world) = [0; 1] ∧
  (getStatus 0 ;; getStatus 1) scenario_world = Ret "Scheduled" scenario_world.
Proof. split; reflexivity. Qed.

Example scenario_cout :
  cout scenario_world =
    [ "Notification for Alice: Appointment scheduled for 01-01-2025" +:+ endl;
      "Notification for Bob: Appointment scheduled for 02-01-2025" +:+ endl;
      endl +:+ "Vehicle: KA01" +:+ endl +:+ "Client: Alice" +:+
      endl +:+ "Service: Standard Oil Change Service" +:+
      endl +:+ "Date: 01-01-2025" +:+ endl +:+ "Status: In Progress" +:+ endl;
      endl +:+ "Vehicle: KA01" +:+ endl +:+ "Client: Bob" +:+
      endl +:+ "Service: Engine Repair: gasket" +:+
      endl +:+ "Date: 02-01-2025" +:+ endl +:+ "Status: Scheduled" +:+ endl ].
Proof. reflexivity. Qed.

Example bike_request :
  schedule_flow (initial_world bike_input) =
    Throw (invalid_argument "Invalid service type")
      (set_cout prompts (initial_world [])).
Proof. reflexivity. Qed.

(** * The claims *)

(** C1.  In every world reached from the start of the program by calls of
    [addAppointment] (accepted or rejected), [progressState] and
    [viewAppointments], every pointer of the registry is valid and no two
    stored appointments have the same vehicle number and the same
    scheduled date. *)
Theorem registry_keys_distinct input evs w :
  trace (initial_world input) evs w →
  ∃ l, stored w = Some l ∧
       NoDup (map key l) ∧
       ∀ i j a b, l !! i = Some a → l !! j = Some b →
                  vehicleNumber a = vehicleNumber b →
                  scheduledDate a = scheduledDate b → i = j.
Proof.
  intros Htr.
  destruct (trace_registry_inv [] _ _ _ (registry_inv_initial input) Htr)
    as (l & Hl & _ & Hnd).
  exists l. split; [done|]. split; [done|].
  intros i j a b Hi Hj Hv Hd.
  eapply NoDup_lookup; [exact Hnd| |].
  - rewrite list_lookup_fmap, Hi. reflexivity.
  - rewrite list_lookup_fmap, Hj. cbn. unfold key. by rewrite Hv, Hd.
Qed.

Lemma registry_keys_distinct_scenario :
  trace (initial_world []) scenario scenario_world ∧
  ∃ l, stored scenario_world = Some l ∧ NoDup (map key l) ∧ length l = 2.
Proof.
  split; [exact scenario_trace|].
  destruct (registry_keys_distinct [] scenario scenario_world scenario_trace)
    as (l & Hl & Hnd & _).
  exists l. split; [exact Hl|]. split; [exact Hnd|].
  vm_compute in Hl. injection Hl as <-. reflexivity.
Defined.

(** C2.  When the registry holds valid pointers, [addAppointment] throws
    if and only if a stored appointment has the requested vehicle number
    and the requested date.  The exception is then the scheduling-conflict
    [runtime_error], and the world is left exactly as it was: the same
    registry, the same appointments, and nothing written to [cout]. *)
Theorem addAppointment_throws_iff_conflict w l c v s d :
  stored w = Some l →
  ((∃ e w', addAppointment c v s d w = Throw e w') ↔
   (∃ a, a ∈ l ∧ vehicleNumber a = v ∧ scheduledDate a = d)) ∧
  (∀ e w', addAppointment c v s d w = Throw e w' →
           e = runtime_error conflict_message ∧ w' = w).
Proof.
  intros Hl. rewrite (addAppointment_spec c v s d w l Hl).
  rewrite <- existsb_collides.
  destruct (existsb (collides v d) l); split.
  - split; [done|]. intros _. by eexists _, _.
  - intros e w' [= <- <-]. done.
  - split; [|done]. by intros (e & w' & ?).
  - by intros e w' ?.
Qed.

Lemma addAppointment_throws_iff_conflict_booked :
  stored booked_world =
    Some [ServiceAppointment_ctor Alice "KA01" OilChange_ctor "01-01-2025"
            TheServiceCenter] ∧
  ∃ e, addAppointment Bob "KA01" OilChange_ctor "01-01-2025" booked_world
       = Throw e booked_world.
Proof.
  assert (stored booked_world =
    Some [ServiceAppointment_ctor Alice "KA01" OilChange_ctor "01-01-2025"
            TheServiceCenter]) as Hl by reflexivity.
  split; [exact Hl|].
  destruct (addAppointment_throws_iff_conflict booked_world _ Bob "KA01"
              OilChange_ctor "01-01-2025" Hl) as [[_ Hthrow] Hsame].
  destruct Hthrow as (e & w' & Hrun).
  - eexists. split; [apply list_elem_of_here|]. split; reflexivity.
  - exists e. destruct (Hsame e w' Hrun) as [_ ->]. exact Hrun.
Defined.

(** C3.  When the registry holds valid pointers and no stored appointment
    has the requested vehicle number and date, [addAppointment] returns
    normally; one appointment is allocated and its pointer is pushed at
    the end of the registry; the appointment is in the Scheduled state and
    carries the given client, vehicle number, service and date; and one
    text, the notification of that client with the message
    "Appointment scheduled for " followed by the date, is written to
    [cout] before the call returns.  Nothing else changes. *)
Theorem addAppointment_success w l c v s d :
  stored w = Some l →
  (∀ a, a ∈ l → ¬ (vehicleNumber a = v ∧ scheduledDate a = d)) →
  ∃ w',
    addAppointment c v s d w = Ret tt w' ∧
    appointments (center w') = appointments (center w) ++ [length (heap w)] ∧
    heap w' =
      heap w ++
        [{| client := c; vehicleNumber := v; service := s;
            scheduledDate := d; currentState := ScheduledState;
            serviceCenter := TheServiceCenter |}] ∧
    stored w' =
      Some (l ++
        [{| client := c; vehicleNumber := v; service := s;
            scheduledDate := d; currentState := ScheduledState;
            serviceCenter := TheServiceCenter |}]) ∧
    cout w' =
      cout w ++
        ["Notification for " +:+ name c +:+ ": " +:+
         ("Appointment scheduled for " +:+ d) +:+ endl] ∧
    cin w' = cin w ∧ cerr w' = cerr w ∧ isOpen (center w') = isOpen (center w).
Proof.
  intros Hl Hfree. exists (after_scheduling c v s d w).
  rewrite (addAppointment_spec c v s d w l Hl).
  destruct (existsb (collides v d) l) eqn:Hex.
  - apply existsb_collides in Hex as (a & Hin & Hv & Hd).
    by destruct (Hfree a Hin).
  - split; [done|]. do 2 (split; [done|]).
    split; [by apply stored_after_scheduling|]. done.
Qed.

Lemma addAppointment_success_booked :
  ∃ w',
    addAppointment Bob "KA01" (EngineRepair_ctor "gasket") "02-01-2025"
      booked_world = Ret tt w' ∧
    appointments (center w') = [0; 1] ∧
    cout w' = cout booked_world ++
      ["Notification for Bob: Appointment scheduled for 02-01-2025" +:+ endl].
Proof.
  destruct (addAppointment_success booked_world
              [ServiceAppointment_ctor Alice "KA01" OilChange_ctor
                 "01-01-2025" TheServiceCenter]
              Bob "KA01" (EngineRepair_ctor "gasket") "02-01-2025")
    as (w' & Hrun & Hreg & _ & _ & Hout & _).
  - reflexivity.
  - intros a Ha. apply list_elem_of_singleton in Ha. subst a. cbn.
    intros [_ Hd]. discriminate Hd.
  - exists w'. split; [exact Hrun|]. split; [exact Hreg|exact Hout].
Defined.

(** C4.  Called on a valid appointment, [progressState] returns normally
    and installs the next state of the chain Scheduled, In Progress,
    Completed, leaving a Completed appointment Completed.  After [n] calls
    the appointment is [n] positions further along the chain, capped at
    Completed: no state is skipped and none is revisited.  On a freshly
    constructed appointment three calls give the status "Completed", and
    so do four. *)
Theorem progressState_lifecycle w p a :
  heap w !! p = Some a →
  (∃ w' a',
     progressState p w = Ret tt w' ∧ heap w' !! p = Some a' ∧
     currentState a' =
       match currentState a with
       | ScheduledState => InProgressState
       | InProgressState => CompletedState
       | CompletedState => CompletedState
       end) ∧
  (∀ n, ∃ w' a',
     repeat_call n (progressState p) w = Ret tt w' ∧
     heap w' !! p = Some a' ∧
     stage (currentState a') = Nat.min (stage (currentState a) + n) 2) ∧
  (currentState a = ScheduledState →
   (∃ w3, (repeat_call 3 (progressState p) ;; getStatus p) w
          = Ret "Completed" w3) ∧
   (∃ w4, (repeat_call 4 (progressState p) ;; getStatus p) w
          = Ret "Completed" w4)).
Proof.
  intros Hp.
  assert (p < length (heap w)) as Hlt by by eapply lookup_lt_Some.
  split; [|split].
  - eexists _, _. split; [by apply progressState_spec|].
    split; [by apply list_lookup_insert_eq|]. reflexivity.
  - intros n. eexists _, _.
    split; [by apply repeat_progressState_spec|].
    split; [by apply list_lookup_insert_eq|].
    apply stage_iter_successor.
  - intros Hs. split; eexists; unfold bind at 1;
      rewrite (repeat_progressState_spec _ p a w Hp);
      unfold getStatus, bind, deref; cbn [heap set_heap];
      rewrite list_lookup_insert_eq by done; rewrite Hs; reflexivity.
Qed.

Lemma progressState_lifecycle_booked :
  heap booked_world !! 0 =
    Some (ServiceAppointment_ctor Alice "KA01" OilChange_ctor "01-01-2025"
            TheServiceCenter) ∧
  ∃ w3, (repeat_call 3 (progressState 0) ;; getStatus 0) booked_world
        = Ret "Completed" w3.
Proof.
  split; [reflexivity|].
  apply (progressState_lifecycle booked_world 0
           (ServiceAppointment_ctor Alice "KA01" OilChange_ctor "01-01-2025"
              TheServiceCenter)); reflexivity.
Defined.

(** C5.  The cost of a constructed [OilChange] is 50.0.  For every string
    [x], the base cost of [EngineRepair(x)] is 200.0, its cost is 300.0,
    the product of 200.0 and 1.5 in binary64 arithmetic, and its
    description is "Engine Repair: " followed by [x], so that it contains
    [x] unchanged. *)
Theorem service_costs_and_description :
  fst (calculateCost OilChange_ctor) = 50.0%float ∧
  ∀ x : string,
    fst (calculateCost (EngineRepair_ctor x)) = 300.0%float ∧
    (200.0 * 1.5)%float = 300.0%float ∧
    (∃ base, EngineRepair_ctor x = EngineRepair base x ∧
             baseCost base = 200.0%float) ∧
    (∃ before after,
       getDescription (EngineRepair_ctor x) = before +:+ x +:+ after) ∧
    String.substring (String.length "Engine Repair: ") (String.length x)
      (getDescription (EngineRepair_ctor x)) = x.
Proof.
  split; [reflexivity|]. intros x.
  split; [reflexivity|]. split; [reflexivity|].
  split; [by eexists|]. split.
  - exists "Engine Repair: ", EmptyString.
    by rewrite append_empty_r.
  - change (String.substring 0 (String.length x) x = x).
    apply substring_whole.
Qed.

(** C6.  A call of [calculateCost] or of [getDescription], in any world,
    returns normally and leaves the world exactly as it was: nothing is
    written or read, no exception is thrown, and the registry and the
    store are untouched.  [calculateCost] also leaves its object as it
    was.  The result is determined by the object alone: the base cost of
    an oil change, the base cost times 1.5 of an engine repair, and the
    fixed text or "Engine Repair: " followed by the repair type.  It is
    the same in every world and in every round of any number of calls in
    a row on the same object.  For the objects the constructors build, the
    results are 50.0 and 300.0 and the two descriptions, so that equally
    constructed objects give equal results. *)
Theorem service_methods_pure (s : Service) :
  ∃ (cost : double) (description : string),
    cost = match s with
           | OilChange base => baseCost base
           | EngineRepair base _ => (baseCost base * 1.5)%float
           end ∧
    description = match s with
                  | OilChange _ => "Standard Oil Change Service"
                  | EngineRepair _ repairType =>
                      "Engine Repair: " +:+ repairType
                  end ∧
    (∀ w, Service_calculateCost s w = Ret (cost, s) w) ∧
    (∀ w, Service_getDescription s w = Ret description w) ∧
    (∀ n w,
       Service_calls n s w = Ret (replicate n (cost, description), s) w) ∧
    (∀ w,
       Service_calculateCost OilChange_ctor w =
         Ret (50.0%float, OilChange_ctor) w ∧
       Service_getDescription OilChange_ctor w =
         Ret "Standard Oil Change Service" w) ∧
    (∀ x w,
       Service_calculateCost (EngineRepair_ctor x) w =
         Ret (300.0%float, EngineRepair_ctor x) w ∧
       Service_getDescription (EngineRepair_ctor x) w =
         Ret ("Engine Repair: " +:+ x) w).
Proof.
  exists (fst (calculateCost s)), (getDescription s).
  assert (∀ w, Service_calculateCost s w = Ret (fst (calculateCost s), s) w)
    as Hcost.
  { intros w. rewrite Service_calculateCost_run. by destruct s. }
  split; [by destruct s|]. split; [by destruct s|].
  split; [exact Hcost|]. split; [apply Service_getDescription_run|].
  split; [|by split].
  induction n as [|n IH]; intros w; [done|].
  cbn [Service_calls]. unfold bind. rewrite Hcost. cbn [fst snd].
  by rewrite Service_getDescription_run, IH.
Qed.

(** C7.  In every world reached from the start of the program, the
    registry holds as many appointments as [addAppointment] calls have
    succeeded, in the order of those calls and with the client, vehicle
    number, service and date of each call, however many calls were
    rejected.  [viewAppointments] returns normally and writes one text per
    stored appointment, in registry order; the text gives the vehicle
    number, the client's name, the service description, the date and the
    status of the appointment's current state. *)
Theorem viewAppointments_lists_accepted input evs w :
  trace (initial_world input) evs w →
  ∃ l,
    stored w = Some l ∧
    map booking l = accepted evs ∧
    length l = length (accepted evs) ∧
    viewAppointments w =
      Ret tt
        (set_cout
           (cout w ++
              map (λ a,
                     endl +:+ "Vehicle: " +:+ vehicleNumber a +:+
                     endl +:+ "Client: " +:+ getName (client a) +:+
                     endl +:+ "Service: " +:+ getDescription (service a) +:+
                     endl +:+ "Date: " +:+ scheduledDate a +:+
                     endl +:+ "Status: " +:+
                     ServiceState_getStatus (currentState a) +:+ endl) l)
           w).
Proof.
  intros Htr.
  destruct (trace_registry_inv [] _ _ _ (registry_inv_initial input) Htr)
    as (l & Hl & Hacc & _).
  rewrite app_nil_l in Hacc.
  exists l. split; [done|]. split; [done|].
  split; [by rewrite <- Hacc, length_map|].
  unfold viewAppointments, bind, get_appointments.
  apply stored_Forall2 in Hl. by rewrite (view_loop_spec _ l).
Qed.

Lemma viewAppointments_lists_accepted_scenario :
  trace (initial_world []) scenario scenario_world ∧
  ∃ w', viewAppointments scenario_world = Ret tt w' ∧
        length (cout w') = length (cout scenario_world) + 2.
Proof.
  split; [exact scenario_trace|].
  destruct (viewAppointments_lists_accepted [] scenario scenario_world
              scenario_trace) as (l & Hl & _ & Hlen & Hview).
  eexists. split; [exact Hview|].
  cbn [cout set_cout]. rewrite length_app, length_map, Hlen. reflexivity.
Defined.

(** C8.  When the registry holds valid pointers, [viewAppointments]
    returns normally and changes nothing but [cout]: the registry, the
    store with every appointment in it, [cin] and [cerr] are as before. *)
Theorem viewAppointments_frame w l :
  stored w = Some l →
  ∃ w',
    viewAppointments w = Ret tt w' ∧
    center w' = center w ∧ heap w' = heap w ∧ stored w' = Some l ∧
    cin w' = cin w ∧ cerr w' = cerr w.
Proof.
  intros Hl. eexists. split.
  - unfold viewAppointments, bind, get_appointments.
    apply stored_Forall2 in Hl. by rewrite (view_loop_spec _ l).
  - done.
Qed.

Lemma viewAppointments_frame_booked :
  stored booked_world =
    Some [ServiceAppointment_ctor Alice "KA01" OilChange_ctor "01-01-2025"
            TheServiceCenter] ∧
  ∃ w', viewAppointments booked_world = Ret tt w' ∧
        center w' = center booked_world ∧ heap w' = heap booked_world.
Proof.
  split; [reflexivity|].
  destruct (viewAppointments_frame booked_world
              [ServiceAppointment_ctor Alice "KA01" OilChange_ctor
                 "01-01-2025" TheServiceCenter])
    as (w' & Hrun & Hc & Hh & _); [reflexivity|].
  exists w'. split; [exact Hrun|]. split; [exact Hc|exact Hh].
Defined.

(** C9.  When the fifth line read by the schedule flow, the service type,
    is neither "oil" nor "engine" (the empty string if the input ends
    before it), the flow throws [invalid_argument] with the message
    "Invalid service type" after writing its five prompts and no
    notification; the registry and the store are not touched.  The loop
    body catches the exception, reports it on [cerr] and continues. *)
Theorem invalid_service_type_rejected w :
  nth 4 (cin w) EmptyString ≠ "oil" →
  nth 4 (cin w) EmptyString ≠ "engine" →
  (∃ w',
     schedule_flow w = Throw (invalid_argument "Invalid service type") w' ∧
     center w' = center w ∧ heap w' = heap w ∧
     cout w' = cout w ++ prompts ∧ cerr w' = cerr w) ∧
  (∃ w',
     main_iteration 1 w = Ret Continue w' ∧
     center w' = center w ∧ heap w' = heap w ∧
     cout w' = cout w ++ menu_text :: prompts ∧
     cerr w' = cerr w ++ ["Error: Invalid service type" +:+ endl]).
Proof.
  intros Hoil%String.eqb_neq Hengine%String.eqb_neq. split.
  - eexists. split; [by apply schedule_flow_invalid|]. done.
  - eexists. split.
    + unfold main_iteration, bind, print_cout, try_catch. cbn [Z.eqb Pos.eqb].
      unfold bind. rewrite schedule_flow_invalid by done.
      reflexivity.
    + cbn. by rewrite <- app_assoc.
Qed.

Lemma invalid_service_type_rejected_bike :
  nth 4 bike_input EmptyString = "bike" ∧
  ∃ w', main_iteration 1 (initial_world bike_input) = Ret Continue w' ∧
        center w' = ServiceCenter_ctor ∧ heap w' = [] ∧
        cerr w' = ["Error: Invalid service type" +:+ endl].
Proof.
  split; [reflexivity|].
  destruct (invalid_service_type_rejected (initial_world bike_input))
    as [_ (w' & Hrun & Hc & Hh & _ & He)].
  - cbn. discriminate.
  - cbn. discriminate.
  - exists w'. split; [exact Hrun|]. split; [exact Hc|]. split; [exact Hh|].
    exact He.
Defined.

(** C10.  Any number of [progressState] calls on a valid appointment
    return normally and change nothing but the [currentState] member of
    that appointment: its client, vehicle number, service, scheduled date
    and back pointer are as before, every other object of the store is as
    before, and the registry (its vector of pointers, hence its length and
    order, and what was booked at each position) is as before; so are the
    three streams. *)
Theorem progressState_frame n p a w :
  heap w !! p = Some a →
  ∃ w' a',
    repeat_call n (progressState p) w = Ret tt w' ∧
    heap w' !! p = Some a' ∧
    client a' = client a ∧ vehicleNumber a' = vehicleNumber a ∧
    service a' = service a ∧ scheduledDate a' = scheduledDate a ∧
    serviceCenter a' = serviceCenter a ∧
    (∀ q, q ≠ p → heap w' !! q = heap w !! q) ∧
    length (heap w') = length (heap w) ∧
    center w' = center w ∧
    (∀ l, stored w = Some l →
          ∃ l', stored w' = Some l' ∧ map booking l' = map booking l) ∧
    cin w' = cin w ∧ cout w' = cout w ∧ cerr w' = cerr w.
Proof.
  intros Hp. eexists _, _.
  split; [by apply repeat_progressState_spec|].
  split; [apply list_lookup_insert_eq; by eapply lookup_lt_Some|].
  do 5 (split; [done|]).
  split; [intros q Hq; cbn; by rewrite list_lookup_insert_ne|].
  split; [cbn; by rewrite length_insert|].
  split; [done|].
  split; [|done].
  intros l Hl. by apply stored_after_update.
Qed.

Lemma progressState_frame_booked :
  heap booked_world !! 0 =
    Some (ServiceAppointment_ctor Alice "KA01" OilChange_ctor "01-01-2025"
            TheServiceCenter) ∧
  ∃ w' a',
    repeat_call 5 (progressState 0) booked_world = Ret tt w' ∧
    heap w' !! 0 = Some a' ∧ vehicleNumber a' = "KA01" ∧
    center w' = center booked_world.
Proof.
  split; [reflexivity|].
  destruct (progressState_frame 5 0
              (ServiceAppointment_ctor Alice "KA01" OilChange_ctor
                 "01-01-2025" TheServiceCenter) booked_world)
    as (w' & a' & Hrun & Hp & _ & Hv & _ & _ & _ & _ & _ & Hc & _);
    [reflexivity|].
  exists w', a'. split; [exact Hrun|]. split; [exact Hp|].
  split; [exact Hv|exact Hc].
Defined.

(** * Further properties: the schedule flow and the loop of main *)

(** ** The schedule flow, unfolded *)

Lemma schedule_flow_unfold w :
  schedule_flow w =
    let lines := cin w in
    let client0 :=
      Client_ctor (nth 0 lines EmptyString) (nth 1 lines EmptyString) in
    let vehicleNum := nth 2 lines EmptyString in
    let date := nth 3 lines EmptyString in
    if String.eqb (nth 4 lines EmptyString) "oil"
    then (addAppointment client0 vehicleNum OilChange_ctor date ;;
          print_cout success_text)
           (set_cin (drop 5 lines) (set_cout (cout w ++ prompts) w))
    else if String.eqb (nth 4 lines EmptyString) "engine"
    then (addAppointment client0 vehicleNum
            (EngineRepair_ctor (nth 5 lines EmptyString)) date ;;
          print_cout success_text)
           (set_cin (drop 6 lines)
              (set_cout (cout w ++ prompts ++ [engine_prompt]) w))
    else Throw (invalid_argument "Invalid service type")
           (set_cin (drop 5 lines) (set_cout (cout w ++ prompts) w)).
Proof.
  destruct w as [c h i o e].
  destruct i as [|l1 [|l2 [|l3 [|l4 [|l5 [|l6 rest]]]]]];
    cbv [schedule_flow bind print_cout getline set_cout set_cin cin cout
         center heap cerr ret throw nth drop];
    first [ destruct (String.eqb l5 "oil");
            [|destruct (String.eqb l5 "engine")]
          | cbn [String.eqb] ];
    cbv [bind print_cout getline set_cout set_cin cin cout center heap cerr
         ret throw];
    repeat rewrite <- app_assoc; reflexivity.
Qed.

Lemma no_collision v d l :
  (∀ a, a ∈ l → ¬ (vehicleNumber a = v ∧ scheduledDate a = d)) →
  existsb (collides v d) l = false.
Proof.
  intros Hfree. destruct (existsb (collides v d) l) eqn:Hex; [|done].
  apply existsb_collides in Hex as (a & Hin & Hc). by destruct (Hfree a Hin).
Qed.

Lemma some_collision v d l :
  (∃ a, a ∈ l ∧ vehicleNumber a = v ∧ scheduledDate a = d) →
  existsb (collides v d) l = true.
Proof. apply existsb_collides. Qed.

(** The tail of the schedule flow: the call of [addAppointment] and the
    report of success. *)
Lemma schedule_and_report c v s d w l :
  stored w = Some l →
  (addAppointment c v s d ;; print_cout success_text) w =
    if existsb (collides v d) l
    then Throw (runtime_error conflict_message) w
    else Ret tt
           (set_cout (cout (after_scheduling c v s d w) ++ [success_text])
              (after_scheduling c v s d w)).
Proof.
  intros Hl. unfold bind. rewrite (addAppointment_spec c v s d w l Hl).
  by destruct (existsb (collides v d) l).
Qed.

(** ** The schedule flow on well-formed requests *)

(** X1.  When the five lines read are a name, a contact, a vehicle
    number, a date and the word "oil", the registry holds valid pointers
    and no stored appointment has that vehicle number and date, the
    schedule flow returns normally: it stores an oil change for a client
    with that name and contact, writes its five prompts, the notification
    and the success message, and consumes exactly those five lines.  The
    four strings are arbitrary: no format is checked. *)
Theorem schedule_flow_oil w l n c v d rest :
  cin w = n :: c :: v :: d :: "oil" :: rest →
  stored w = Some l →
  (∀ a, a ∈ l → ¬ (vehicleNumber a = v ∧ scheduledDate a = d)) →
  ∃ w',
    schedule_flow w = Ret tt w' ∧
    stored w' =
      Some (l ++ [ServiceAppointment_ctor (Client_ctor n c) v OilChange_ctor
                    d TheServiceCenter]) ∧
    cout w' =
      cout w ++ prompts ++
        [ "Notification for " +:+ n +:+ ": " +:+
          ("Appointment scheduled for " +:+ d) +:+ endl;
          "Appointment scheduled successfully!" +:+ endl ] ∧
    cin w' = rest ∧ cerr w' = cerr w.
Proof.
  intros Hcin Hl Hfree. eexists. split.
  - rewrite schedule_flow_unfold, Hcin. cbn [nth drop].
    rewrite String.eqb_refl.
    rewrite (schedule_and_report _ _ _ _ _ l) by exact Hl.
    rewrite no_collision by done. reflexivity.
  - split.
    + apply (stored_after_scheduling (Client_ctor n c) v OilChange_ctor d
               (set_cin rest (set_cout (cout w ++ prompts) w)) l).
      exact Hl.
    + split; [|done]. cbn. by rewrite <- !app_assoc.
Qed.

Lemma schedule_flow_oil_booked :
  ∃ w',
    schedule_flow (set_cin ["Erin"; "555-0177"; "KA07"; "05-01-2025"; "oil"]
                     booked_world) = Ret tt w' ∧
    length <$> stored w' = Some 2 ∧ cin w' = [].
Proof.
  destruct (schedule_flow_oil
              (set_cin ["Erin"; "555-0177"; "KA07"; "05-01-2025"; "oil"]
                 booked_world)
              [ServiceAppointment_ctor Alice "KA01" OilChange_ctor
                 "01-01-2025" TheServiceCenter]
              "Erin" "555-0177" "KA07" "05-01-2025" [])
    as (w' & Hrun & Hstored & _ & Hcin & _).
  - reflexivity.
  - reflexivity.
  - intros a Ha. apply list_elem_of_singleton in Ha. subst a. cbn.
    intros [Hv _]. discriminate Hv.
  - exists w'. split; [exact Hrun|]. split; [|exact Hcin].
    rewrite Hstored. reflexivity.
Defined.

(** X2.  When the fifth line is "engine", the flow asks for the repair
    type and reads one more line, the empty string if the input has
    ended.  Without a conflict it stores an engine repair of that type,
    whose description is "Engine Repair: " followed by the line as typed,
    and it has consumed six lines. *)
Theorem schedule_flow_engine w l n c v d tail :
  cin w = n :: c :: v :: d :: "engine" :: tail →
  stored w = Some l →
  (∀ a, a ∈ l → ¬ (vehicleNumber a = v ∧ scheduledDate a = d)) →
  ∃ w' a,
    schedule_flow w = Ret tt w' ∧
    stored w' = Some (l ++ [a]) ∧
    a = ServiceAppointment_ctor (Client_ctor n c) v
          (EngineRepair_ctor (nth 0 tail EmptyString)) d TheServiceCenter ∧
    getDescription (service a) =
      "Engine Repair: " +:+ nth 0 tail EmptyString ∧
    cout w' =
      cout w ++ prompts ++
        [ "Enter engine repair type: ";
          "Notification for " +:+ n +:+ ": " +:+
          ("Appointment scheduled for " +:+ d) +:+ endl;
          "Appointment scheduled successfully!" +:+ endl ] ∧
    cin w' = drop 1 tail ∧ cerr w' = cerr w.
Proof.
  intros Hcin Hl Hfree. eexists _, _. split; [|split; [|split; [done|]]].
  - rewrite schedule_flow_unfold, Hcin. cbn [nth drop].
    change (String.eqb "engine" "oil") with false.
    rewrite String.eqb_refl. cbv iota.
    rewrite (schedule_and_report _ _ _ _ _ l) by exact Hl.
    rewrite no_collision by done. reflexivity.
  - apply (stored_after_scheduling (Client_ctor n c) v
             (EngineRepair_ctor (nth 0 tail EmptyString)) d
             (set_cin (drop 1 tail)
                (set_cout (cout w ++ prompts ++ [engine_prompt]) w)) l).
    exact Hl.
  - split; [done|]. split; [|done]. cbn. by rewrite <- !app_assoc.
Qed.

Lemma schedule_flow_engine_initial :
  ∃ w' a,
    schedule_flow (initial_world session_input) = Ret tt w' ∧
    stored w' = Some [a] ∧
    getDescription (service a) = "Engine Repair: head gasket" ∧
    length (cin w') = 5.
Proof.
  destruct (schedule_flow_engine (initial_world session_input) []
              "Dave" "555-0142" "KA07" "05-01-2025"
              ["head gasket"; "Erin"; "555-0177"; "KA07"; "05-01-2025"; "oil"])
    as (w' & a & Hrun & Hstored & _ & Hdescr & _ & Hcin & _).
  - reflexivity.
  - reflexivity.
  - intros a Ha. by apply elem_of_nil in Ha.
  - exists w', a. split; [exact Hrun|]. split; [exact Hstored|].
    split; [exact Hdescr|]. rewrite Hcin. reflexivity.
Defined.

(** X3.  When the request read by the flow, for an oil change or an
    engine repair, collides with a stored appointment, the loop body
    catches the conflict: it continues, the registry and the store are as
    before, the conflict message is reported on [cerr], and [cout] holds
    the menu and the prompts but neither a notification nor the success
    message.  For an engine repair the repair type has been asked for and
    read before the conflict is found. *)
Theorem main_iteration_conflict w l n c v d st tail :
  cin w = n :: c :: v :: d :: st :: tail →
  st = "oil" ∨ st = "engine" →
  stored w = Some l →
  (∃ a, a ∈ l ∧ vehicleNumber a = v ∧ scheduledDate a = d) →
  ∃ w',
    main_iteration 1 w = Ret Continue w' ∧
    center w' = center w ∧ heap w' = heap w ∧
    cerr w' =
      cerr w ++
        [ "Error: Scheduling conflict: Vehicle already has an appointment on this date"
          +:+ endl ] ∧
    cout w' =
      cout w ++ menu_text :: prompts ++
        (if String.eqb st "engine" then ["Enter engine repair type: "]
         else []) ∧
    cin w' = (if String.eqb st "engine" then drop 1 tail else tail).
Proof.
  intros Hcin Hst Hl Hhit%some_collision.
  unfold main_iteration, bind at 1, print_cout at 1, try_catch.
  cbn [Z.eqb Pos.eqb]. unfold bind at 1.
  rewrite schedule_flow_unfold. cbn [cin set_cout]. rewrite Hcin.
  cbn [nth drop].
  destruct Hst as [-> | ->].
  - rewrite String.eqb_refl.
    rewrite (schedule_and_report _ _ _ _ _ l) by exact Hl.
    rewrite Hhit. eexists. split; [reflexivity|].
    cbn. by rewrite <- !app_assoc.
  - change (String.eqb "engine" "oil") with false.
    rewrite String.eqb_refl. cbv iota.
    rewrite (schedule_and_report _ _ _ _ _ l) by exact Hl.
    rewrite Hhit. eexists. split; [reflexivity|].
    cbn. by rewrite <- !app_assoc.
Qed.

Lemma main_iteration_conflict_booked :
  ∃ w',
    main_iteration 1
      (set_cin ["Bob"; "555-0199"; "KA01"; "01-01-2025"; "engine"; "valves"]
         booked_world) = Ret Continue w' ∧
    center w' = center booked_world ∧ heap w' = heap booked_world ∧
    cin w' = [].
Proof.
  destruct (main_iteration_conflict
              (set_cin
                 ["Bob"; "555-0199"; "KA01"; "01-01-2025"; "engine"; "valves"]
                 booked_world)
              [ServiceAppointment_ctor Alice "KA01" OilChange_ctor
                 "01-01-2025" TheServiceCenter]
              "Bob" "555-0199" "KA01" "01-01-2025" "engine" ["valves"])
    as (w' & Hrun & Hc & Hh & _ & _ & Hcin).
  - reflexivity.
  - right. reflexivity.
  - reflexivity.
  - eexists. split; [apply list_elem_of_here|]. split; reflexivity.
  - exists w'. split; [exact Hrun|]. split; [exact Hc|]. split; [exact Hh|].
    exact Hcin.
Defined.

(** ** The loop body *)

Lemma schedule_flow_cases w l :
  stored w = Some l →
  (∃ w' a,
     schedule_flow w = Ret tt w' ∧ stored w' = Some (l ++ [a]) ∧
     (key a ∉ map key l) ∧ isOpen (center w') = isOpen (center w)) ∨
  (∃ e w',
     schedule_flow w = Throw e w' ∧ center w' = center w ∧ heap w' = heap w).
Proof.
  intros Hl. rewrite schedule_flow_unfold. cbv zeta.
  destruct (String.eqb (nth 4 (cin w) EmptyString) "oil");
    [|destruct (String.eqb (nth 4 (cin w) EmptyString) "engine")].
  3: { right. eexists _, _. done. }
  all: rewrite (schedule_and_report _ _ _ _ _ l) by exact Hl.
  all: match goal with
       | |- context [existsb (collides ?v ?d) ?k] =>
           destruct (existsb (collides v d) k) eqn:Hex
       end.
  all: try (right; eexists _, _; done).
  all: left; eexists _, _; split; [reflexivity|].
  - split.
    { apply (stored_after_scheduling _ _ _ _
               (set_cin (drop 5 (cin w)) (set_cout (cout w ++ prompts) w)) l).
      exact Hl. }
    split; [exact (existsb_collides_key _ _ _ Hex)|done].
  - split.
    { apply (stored_after_scheduling _ _ _ _
               (set_cin (drop 6 (cin w))
                  (set_cout (cout w ++ prompts ++ [engine_prompt]) w)) l).
      exact Hl. }
    split; [exact (existsb_collides_key _ _ _ Hex)|done].
Qed.

Lemma view_spec w l :
  stored w = Some l →
  viewAppointments w = Ret tt (set_cout (cout w ++ map summary l) w).
Proof.
  intros Hl%stored_Forall2. unfold viewAppointments, bind, get_appointments.
  by rewrite (view_loop_spec _ l).
Qed.

Lemma NoDup_keys_extend l new :
  NoDup (map key l) →
  length new ≤ 1 →
  (∀ a, a ∈ new → key a ∉ map key l) →
  NoDup (map key (l ++ new)).
Proof.
  intros Hnd Hlen Hfresh. destruct new as [|a [|b new]].
  - by rewrite app_nil_r.
  - rewrite map_app. apply NoDup_app. split; [done|]. split.
    + intros k Hk Hk'. apply list_elem_of_singleton in Hk'. subst k.
      by apply (Hfresh a); [apply list_elem_of_here|].
    + apply NoDup_singleton.
  - cbn in Hlen. lia.
Qed.

Lemma main_iteration_run w l option :
  stored w = Some l →
  ∃ control w' new,
    main_iteration option w = Ret control w' ∧
    (control = Break ↔ option = 3%Z) ∧
    stored w' = Some (l ++ new) ∧
    (∀ a, a ∈ new → key a ∉ map key l) ∧
    length new ≤ 1 ∧
    (option ≠ 1%Z → new = []) ∧
    isOpen (center w') = isOpen (center w).
Proof.
  intros Hl.
  unfold main_iteration, bind at 1, print_cout at 1, try_catch.
  destruct (Z.eqb_spec option 1) as [->|Hne1].
  - unfold bind at 1.
    destruct (schedule_flow_cases (set_cout (cout w ++ [menu_text]) w) l Hl)
      as [(w' & a & -> & Hl' & Hfresh & Hopen)|(e & w' & -> & Hc & Hh)].
    + eexists _, _, [a]. split; [reflexivity|]. split; [done|].
      split; [exact Hl'|]. split; [|done].
      intros b Hb. apply list_elem_of_singleton in Hb. by subst b.
    + eexists _, _, []. split; [reflexivity|]. split; [done|].
      rewrite app_nil_r. split.
      { unfold stored in *. cbn. by rewrite Hc, Hh. }
      split; [by intros a Ha%elem_of_nil|]. split; [cbn; lia|].
      split; [done|]. cbn. by rewrite Hc.
  - destruct (Z.eqb_spec option 2) as [->|Hne2];
      [|destruct (Z.eqb_spec option 3) as [->|Hne3]].
    + unfold bind at 1. rewrite (view_spec _ l) by exact Hl.
      eexists _, _, []. split; [reflexivity|]. rewrite app_nil_r.
      repeat split; try done; try (cbn; lia); by intros a Ha%elem_of_nil.
    + eexists _, _, []. split; [reflexivity|]. rewrite app_nil_r.
      repeat split; try done; try (cbn; lia); by intros a Ha%elem_of_nil.
    + eexists _, _, []. split; [reflexivity|]. rewrite app_nil_r.
      repeat split; try done; try (cbn; lia); by intros a Ha%elem_of_nil.
Qed.

(** X4.  Started on a registry of valid pointers with pairwise distinct
    keys, one iteration of the loop never lets an exception escape and
    never dereferences an invalid pointer: it returns, and it leaves the
    loop exactly when the option is 3.  The appointments stored before are
    still stored, unchanged and in the same order, followed by at most one
    new appointment, which is there only if the option was 1; the keys are
    still pairwise distinct and the center is still open. *)
Theorem main_iteration_safe w l option :
  stored w = Some l →
  NoDup (map key l) →
  ∃ control w' new,
    main_iteration option w = Ret control w' ∧
    (control = Break ↔ option = 3%Z) ∧
    stored w' = Some (l ++ new) ∧
    NoDup (map key (l ++ new)) ∧
    length new ≤ 1 ∧
    (option ≠ 1%Z → new = []) ∧
    isOpen (center w') = isOpen (center w).
Proof.
  intros Hl Hnd.
  destruct (main_iteration_run w l option Hl)
    as (control & w' & new & Hrun & Hbreak & Hl' & Hfresh & Hlen & Hnew
        & Hopen).
  exists control, w', new. split; [exact Hrun|]. split; [exact Hbreak|].
  split; [exact Hl'|]. split; [by apply NoDup_keys_extend|].
  split; [exact Hlen|]. split; [exact Hnew|exact Hopen].
Qed.

Lemma main_iteration_safe_booked :
  ∃ control w',
    main_iteration 3 booked_world = Ret control w' ∧ control = Break ∧
    length <$> stored w' = Some 1.
Proof.
  destruct (main_iteration_safe booked_world
              [ServiceAppointment_ctor Alice "KA01" OilChange_ctor
                 "01-01-2025" TheServiceCenter] 3)
    as (control & w' & new & Hrun & Hbreak & Hstored & _ & _ & Hnew & _).
  - reflexivity.
  - apply NoDup_singleton.
  - exists control, w'. split; [exact Hrun|].
    split; [apply Hbreak; reflexivity|].
    rewrite Hstored, Hnew; [reflexivity|discriminate].
Defined.

(** X5.  With an option other than 1 the loop body reads no input and
    changes neither the registry nor the store nor [cerr].  After the menu
    it writes the listing of the stored appointments for option 2 (nothing
    at all when the registry is empty), the farewell for option 3, and
    "Invalid option!" for every other number. *)
Theorem main_iteration_other_options w l option :
  option ≠ 1%Z →
  stored w = Some l →
  ∃ control w',
    main_iteration option w = Ret control w' ∧
    center w' = center w ∧ heap w' = heap w ∧
    cin w' = cin w ∧ cerr w' = cerr w ∧
    cout w' =
      cout w ++ menu_text ::
        (if (option =? 2)%Z then map summary l
         else if (option =? 3)%Z then ["Exiting system..." +:+ endl]
         else ["Invalid option!" +:+ endl]).
Proof.
  intros Hne1 Hl.
  unfold main_iteration, bind at 1, print_cout at 1, try_catch.
  destruct (Z.eqb_spec option 1) as [->|_]; [done|].
  destruct (option =? 2)%Z; [|destruct (option =? 3)%Z].
  - unfold bind at 1. rewrite (view_spec _ l) by exact Hl.
    eexists _, _. split; [reflexivity|]. cbn. by rewrite <- app_assoc.
  - eexists _, _. split; [reflexivity|]. cbn. by rewrite <- app_assoc.
  - eexists _, _. split; [reflexivity|]. cbn. by rewrite <- app_assoc.
Qed.

Lemma main_iteration_other_options_initial :
  ∃ w',
    main_iteration 2 (initial_world []) = Ret Continue w' ∧
    cout w' = [menu_text] ∧
    main_iteration 7 (initial_world []) =
      Ret Continue
        (set_cout [menu_text; "Invalid option!" +:+ endl] (initial_world [])).
Proof.
  destruct (main_iteration_other_options (initial_world []) [] 2)
    as (control & w' & Hrun & _ & _ & _ & _ & Hcout).
  - discriminate.
  - reflexivity.
  - exists w'. split; [|split; [exact Hcout|reflexivity]].
    rewrite Hrun. vm_compute in Hrun. by injection Hrun as <- _.
Defined.

(** ** The loop *)

Lemma main_iteration_break option w w' :
  main_iteration option w = Ret Break w' → option = 3%Z.
Proof.
  unfold main_iteration, bind at 1, print_cout at 1, try_catch.
  destruct (Z.eqb_spec option 1) as [->|_];
    [|destruct (Z.eqb_spec option 2) as [->|_];
      [|destruct (Z.eqb_spec option 3) as [->|_]; [done|]]].
  - unfold bind at 1. by destruct (schedule_flow _).
  - unfold bind at 1. by destruct (viewAppointments _).
  - done.
Qed.

Lemma main_loop_run options w l :
  stored w = Some l →
  NoDup (map key l) →
  ∃ r w' new,
    main_loop options w = Ret r w' ∧
    (r = Some 0%Z ↔ 3%Z ∈ options) ∧
    (r = None ↔ 3%Z ∉ options) ∧
    stored w' = Some (l ++ new) ∧
    NoDup (map key (l ++ new)) ∧
    length new ≤ count_occ Z.eq_dec options 1%Z ∧
    isOpen (center w') = isOpen (center w).
Proof.
  revert w l. induction options as [|option options IH]; intros w l Hl Hnd.
  - exists None, w, []. split; [done|]. rewrite app_nil_r.
    split; [split; [done|by intros ?%elem_of_nil]|].
    split; [split; [by intros _ ?%elem_of_nil|done]|]. done.
  - destruct (main_iteration_run w l option Hl)
      as (control & w1 & new1 & Hrun & Hbreak & Hl1 & Hfresh & Hlen & Hnew
          & Hopen).
    pose proof (NoDup_keys_extend l new1 Hnd Hlen Hfresh) as Hnd1.
    assert (length new1 ≤ if Z.eq_dec option 1%Z then 1 else 0) as Hlen1.
    { destruct (Z.eq_dec option 1%Z) as [|Hne]; [done|].
      by rewrite (Hnew Hne). }
    cbn [main_loop]. unfold bind at 1. rewrite Hrun.
    destruct control.
    + assert (option ≠ 3%Z) as Hne3 by (intros H3; by apply Hbreak in H3).
      destruct (IH w1 (l ++ new1) Hl1 Hnd1)
        as (r & w2 & new2 & Hrun2 & Hsome & Hnone & Hl2 & Hnd2 & Hlen2
            & Hopen2).
      exists r, w2, (new1 ++ new2). split; [exact Hrun2|].
      rewrite app_assoc.
      split.
      { rewrite Hsome. split; [by right|].
        intros [H3|H3]%elem_of_cons; [congruence|done]. }
      split.
      { rewrite Hnone, not_elem_of_cons.
        split; [intros ?; split; [congruence|done]|by intros [_ ?]]. }
      split; [exact Hl2|]. split; [exact Hnd2|].
      split; [|congruence].
      rewrite length_app. cbn [count_occ].
      destruct (Z.eq_dec option 1%Z); lia.
    + assert (option = 3%Z) as -> by by apply Hbreak.
      exists (Some 0%Z), w1, new1. split; [done|].
      split; [split; [intros _; apply list_elem_of_here|done]|].
      split; [split; [done|intros Hnot; destruct Hnot; apply list_elem_of_here]|].
      split; [exact Hl1|]. split; [exact Hnd1|]. split; [|exact Hopen].
      rewrite Hnew by done. cbn. lia.
Qed.

(** X6.  Whatever numbers and lines are typed, [main] neither lets an
    exception escape nor dereferences an invalid pointer.  It returns 0
    exactly when one of the numbers is 3, and is still in its loop
    otherwise.  At that point the registry holds valid pointers to
    appointments with pairwise distinct vehicle-and-date keys, at most one
    for each time option 1 was chosen, and the center is open. *)
Theorem main_safe options input :
  ∃ r w l,
    main options input = Ret r w ∧
    (r = Some 0%Z ↔ 3%Z ∈ options) ∧
    (r = None ↔ 3%Z ∉ options) ∧
    stored w = Some l ∧
    NoDup (map key l) ∧
    length l ≤ count_occ Z.eq_dec options 1%Z ∧
    isOpen (center w) = true.
Proof.
  destruct (main_loop_run options (initial_world input) [])
    as (r & w & l & Hrun & Hsome & Hnone & Hl & Hnd & Hlen & Hopen).
  - reflexivity.
  - constructor.
  - exists r, w, l. split; [exact Hrun|]. split; [exact Hsome|].
    split; [exact Hnone|]. split; [exact Hl|]. split; [exact Hnd|].
    split; [exact Hlen|]. exact Hopen.
Qed.

(** X7.  The loop ends at the first 3: numbers typed after it are never
    looked at, whatever the state of the program. *)
Theorem main_loop_stops_at_exit pre post w :
  main_loop (pre ++ 3%Z :: post) w = main_loop (pre ++ [3%Z]) w.
Proof.
  revert w. induction pre as [|option pre IH]; intros w.
  - reflexivity.
  - cbn [app main_loop]. unfold bind.
    destruct (main_iteration option w) as [[|] w1|e w1|]; try reflexivity.
    apply IH.
Qed.

(** X8.  As long as no 3 is typed, running the loop on a list of options
    is running it on a first part and then, from the world that leaves, on
    the rest. *)
Theorem main_loop_app pre post w :
  3%Z ∉ pre →
  main_loop (pre ++ post) w = (main_loop pre ;; main_loop post) w.
Proof.
  revert w. induction pre as [|option pre IH]; intros w Hno.
  - reflexivity.
  - apply not_elem_of_cons in Hno as [Hne Hno].
    cbn [app main_loop]. unfold bind.
    destruct (main_iteration option w) as [[|] w1|e w1|] eqn:Hrun;
      try reflexivity.
    + rewrite IH by done. reflexivity.
    + apply main_iteration_break in Hrun. congruence.
Qed.

Lemma main_loop_app_session :
  main_loop session_options (initial_world session_input) =
    (main_loop [1; 1; 2]%Z ;; main_loop [7; 3]%Z)
      (initial_world session_input).
Proof.
  apply (main_loop_app [1; 1; 2]%Z [7; 3]%Z (initial_world session_input)).
  intros Hin. repeat (apply elem_of_cons in Hin as [Hin|Hin]; [discriminate|]).
  by apply elem_of_nil in Hin.
Defined.

Example session_result :
  ∃ w, main session_options session_input = Ret (Some 0%Z) w ∧
       appointments (center w) = [0] ∧
       cerr w = ["Error: " +:+ conflict_message +:+ endl] ∧
       cin w = [].
Proof. eexists. split; [vm_compute; reflexivity|]. by vm_compute. Qed.

(** ** The lifecycle as a user sees it *)

(** X9.  The status shown for an appointment that was just constructed is
    "Scheduled"; after one call of [progressState] it is "In Progress";
    after two calls or more it is "Completed". *)
Theorem status_after_calls w p a n :
  heap w !! p = Some a →
  currentState a = ScheduledState →
  ∃ w',
    (repeat_call n (progressState p) ;; getStatus p) w =
      Ret match n with
          | 0 => "Scheduled"
          | 1 => "In Progress"
          | _ => "Completed"
          end w'.
Proof.
  intros Hp Hs. eexists. unfold bind at 1.
  rewrite (repeat_progressState_spec n p a w Hp).
  unfold getStatus, bind, deref. cbn [heap set_heap].
  rewrite list_lookup_insert_eq by by eapply lookup_lt_Some.
  cbn [currentState assign_currentState ret]. rewrite Hs. f_equal.
  destruct n as [|[|n]]; [reflexivity..|].
  assert (stage (Nat.iter (S (S n)) successor ScheduledState) = 2) as Hst
    by (rewrite stage_iter_successor; cbn [stage]; lia).
  by destruct (Nat.iter (S (S n)) successor ScheduledState).
Qed.

Lemma status_after_calls_booked :
  ∃ w', (repeat_call 1 (progressState 0) ;; getStatus 0) booked_world
        = Ret "In Progress" w'.
Proof.
  apply (status_after_calls booked_world 0
           (ServiceAppointment_ctor Alice "KA01" OilChange_ctor "01-01-2025"
              TheServiceCenter) 1); reflexivity.
Defined.

(** X10.  The three status texts are pairwise different: the status shown
    by [viewAppointments] tells which state the appointment is in. *)
Theorem status_identifies_state s1 s2 :
  ServiceState_getStatus s1 = ServiceState_getStatus s2 ↔ s1 = s2.
Proof.
  split; [|by intros ->].
  destruct s1, s2; cbn; intros H; try reflexivity; discriminate H.
Qed.

(** X11.  [setState] is public and installs whatever state it is given,
    also an earlier one: on a valid appointment it returns normally, the
    status read back is the label of the state just set, the other members
    of the appointment and all other appointments are as before, and of
    two calls in a row only the second shows.  The one-way lifecycle is a
    property of [progressState], not of the appointment. *)
Theorem setState_then_getStatus w p a s :
  heap w !! p = Some a →
  ∃ w',
    setState p s w = Ret tt w' ∧
    getStatus p w' = Ret (ServiceState_getStatus s) w' ∧
    heap w' !! p = Some (assign_currentState s a) ∧
    (∀ q, q ≠ p → heap w' !! q = heap w !! q) ∧
    center w' = center w ∧
    (∀ s0, (setState p s0 ;; setState p s) w = Ret tt w').
Proof.
  intros Hp.
  assert (p < length (heap w)) as Hlt by by eapply lookup_lt_Some.
  assert (∀ s0, setState p s0 w =
            Ret tt (set_heap (<[p := assign_currentState s0 a]> (heap w)) w))
    as Hset.
  { intros s0. unfold setState, bind, deref, store. by rewrite Hp, Hp. }
  eexists. split; [apply Hset|]. split; [|split; [|split; [|split]]].
  - unfold getStatus, bind, deref. cbn [heap set_heap].
    by rewrite list_lookup_insert_eq.
  - by apply list_lookup_insert_eq.
  - intros q Hq. cbn. by rewrite list_lookup_insert_ne.
  - reflexivity.
  - intros s0. unfold bind. rewrite Hset.
    unfold setState, bind, deref, store. cbn [heap set_heap].
    rewrite list_lookup_insert_eq by done.
    unfold set_heap. cbn [heap center cin cout cerr].
    rewrite list_insert_insert_eq.
    by rewrite list_lookup_insert_eq.
Qed.

Lemma setState_then_getStatus_backward :
  ∃ w',
    (repeat_call 2 (progressState 0) ;; setState 0 ScheduledState ;;
     getStatus 0) booked_world = Ret "Scheduled" w'.
Proof.
  destruct (setState_then_getStatus
              (outcome_world (repeat_call 2 (progressState 0) booked_world)
                 booked_world)
              0
              (assign_currentState CompletedState
                 (ServiceAppointment_ctor Alice "KA01" OilChange_ctor
                    "01-01-2025" TheServiceCenter))
              ScheduledState)
    as (w' & Hset & Hget & _); [reflexivity|].
  exists w'. unfold bind.
  change (repeat_call 2 (progressState 0) booked_world)
    with (Ret tt (outcome_world (repeat_call 2 (progressState 0) booked_world)
                    booked_world)).
  cbv iota beta. rewrite Hset. exact Hget.
Defined.

(** ** Scheduling and listing together *)

(** X12.  What is scheduled is what is listed last: after a successful
    [addAppointment], [viewAppointments] writes the texts of the
    appointments stored before, in order, and then the text of the new
    one, with the vehicle number, client name, service description and
    date of the request and the status "Scheduled"; before them [cout]
    holds the notification. *)
Theorem schedule_then_view w l c v s d :
  stored w = Some l →
  (∀ a, a ∈ l → ¬ (vehicleNumber a = v ∧ scheduledDate a = d)) →
  ∃ w',
    (addAppointment c v s d ;; viewAppointments) w = Ret tt w' ∧
    cout w' =
      cout w ++
        [ "Notification for " +:+ name c +:+ ": " +:+
          ("Appointment scheduled for " +:+ d) +:+ endl ] ++
        map summary l ++
        [ summary_text v (name c) (getDescription s) d "Scheduled" ] ∧
    stored w' =
      Some (l ++ [ServiceAppointment_ctor c v s d TheServiceCenter]).
Proof.
  intros Hl Hfree. eexists. split.
  - unfold bind. rewrite (addAppointment_spec c v s d w l Hl).
    rewrite no_collision by done.
    rewrite (view_spec _ _ (stored_after_scheduling c v s d w l Hl)).
    reflexivity.
  - split; [|by apply (stored_after_scheduling c v s d w l)].
    cbn [cout set_cout]. rewrite map_app.
    cbn [after_scheduling cout set_cout set_center set_heap].
    by rewrite <- !app_assoc.
Qed.

Lemma schedule_then_view_booked :
  ∃ w',
    (addAppointment Bob "KA01" (EngineRepair_ctor "gasket") "02-01-2025" ;;
     viewAppointments) booked_world = Ret tt w' ∧
    length (cout w') = 4.
Proof.
  destruct (schedule_then_view booked_world
              [ServiceAppointment_ctor Alice "KA01" OilChange_ctor
                 "01-01-2025" TheServiceCenter]
              Bob "KA01" (EngineRepair_ctor "gasket") "02-01-2025")
    as (w' & Hrun & Hcout & _).
  - reflexivity.
  - intros a Ha. apply list_elem_of_singleton in Ha. subst a. cbn.
    intros [_ Hd]. discriminate Hd.
  - exists w'. split; [exact Hrun|]. rewrite Hcout. reflexivity.
Defined.

(** ** What the registry never does *)

Lemma step_center acc w ev w' :
  registry_inv acc w → step w ev w' →
  appointments (center w) `prefix_of` appointments (center w') ∧
  isOpen (center w') = isOpen (center w).
Proof.
  intros (l & Hl & _) Hstep.
  destruct Hstep as [c v s d w w' Hrun|c v s d e w w' Hrun|p w w' Hrun
                    |w w' Hrun].
  - rewrite (addAppointment_spec _ _ _ _ _ l) in Hrun by done.
    destruct (existsb (collides v d) l); [done|]. injection Hrun as <-.
    split; [|done]. by eexists.
  - rewrite (addAppointment_spec _ _ _ _ _ l) in Hrun by done.
    destruct (existsb (collides v d) l); [|done]. by injection Hrun as _ <-.
  - destruct (heap w !! p) as [a|] eqn:Hp.
    + rewrite (progressState_spec p a w Hp) in Hrun. by injection Hrun as <-.
    + unfold progressState, bind, deref in Hrun. by rewrite Hp in Hrun.
  - rewrite (view_spec w l Hl) in Hrun. by injection Hrun as <-.
Qed.

Lemma trace_center acc w evs w' :
  registry_inv acc w → trace w evs w' →
  appointments (center w) `prefix_of` appointments (center w') ∧
  isOpen (center w') = isOpen (center w).
Proof.
  intros Hinv Htr. revert acc Hinv.
  induction Htr as [w|w ev w1 evs w2 Hstep _ IH]; intros acc Hinv.
  - done.
  - destruct (step_center acc w ev w1 Hinv Hstep) as [Hpre Hopen].
    destruct (IH _ (step_registry_inv acc w ev w1 Hinv Hstep))
      as [Hpre' Hopen'].
    split; [by etrans|congruence].
Qed.

(** X13.  The registry only grows.  Between two worlds of a run that
    started with the program, the pointers stored first are still stored,
    at the same positions; each of them still leads to an appointment with
    the client, vehicle number, service and date it was booked with; what
    follows them are the requests accepted in between, in call order; and
    the center is still open.  No call removes, reorders or rebooks an
    appointment. *)
Theorem registry_only_grows input evs1 w1 evs2 w2 :
  trace (initial_world input) evs1 w1 →
  trace w1 evs2 w2 →
  ∃ l1 l2,
    stored w1 = Some l1 ∧ stored w2 = Some l2 ∧
    map booking l2 = map booking l1 ++ accepted evs2 ∧
    appointments (center w1) `prefix_of` appointments (center w2) ∧
    isOpen (center w2) = true.
Proof.
  intros Htr1 Htr2.
  pose proof (trace_registry_inv [] _ _ _ (registry_inv_initial input) Htr1)
    as Hinv1.
  destruct (trace_center [] _ _ _ (registry_inv_initial input) Htr1)
    as [_ Hopen1].
  destruct (trace_center _ _ _ _ Hinv1 Htr2) as [Hpre Hopen2].
  destruct (trace_registry_inv _ _ _ _ Hinv1 Htr2) as (l2 & Hl2 & Hb2 & _).
  destruct Hinv1 as (l1 & Hl1 & Hb1 & _).
  exists l1, l2. split; [done|]. split; [done|].
  split; [by rewrite Hb2, Hb1|]. split; [done|].
  by rewrite Hopen2, Hopen1.
Qed.

Lemma registry_only_grows_scenario :
  trace (initial_world [])
    [EvAccepted Alice "KA01" OilChange_ctor "01-01-2025"] booked_world ∧
  trace booked_world (drop 1 scenario) scenario_world ∧
  [0] `prefix_of` appointments (center scenario_world).
Proof.
  assert (trace (initial_world [])
            [EvAccepted Alice "KA01" OilChange_ctor "01-01-2025"]
            booked_world) as Htr1.
  { eapply trace_cons; [econstructor; reflexivity|]. apply trace_nil. }
  assert (trace booked_world (drop 1 scenario) scenario_world) as Htr2.
  { cbn [drop scenario].
    repeat (eapply trace_cons; [econstructor; reflexivity|]).
    apply trace_nil. }
  split; [exact Htr1|]. split; [exact Htr2|].
  destruct (registry_only_grows [] _ booked_world _ scenario_world Htr1 Htr2)
    as (l1 & l2 & _ & _ & _ & Hpre & _).
  exact Hpre.
Defined.

(** ** Input consumed by the schedule flow *)

(** X14.  On a registry of valid pointers the schedule flow returns or
    throws, and either way it has consumed the same part of the input:
    the first six lines when the fifth is "engine", the first five
    otherwise (all of the input if it is shorter).  It never writes to
    [cerr]. *)
Theorem schedule_flow_consumes w l :
  stored w = Some l →
  ∃ w',
    (schedule_flow w = Ret tt w' ∨ ∃ e, schedule_flow w = Throw e w') ∧
    cin w' =
      drop (if String.eqb (nth 4 (cin w) EmptyString) "engine" then 6 else 5)
        (cin w) ∧
    cerr w' = cerr w.
Proof.
  intros Hl. rewrite schedule_flow_unfold. cbv zeta.
  destruct (String.eqb_spec (nth 4 (cin w) EmptyString) "oil") as [Hoil|_].
  - rewrite Hoil. change (String.eqb "oil" "engine") with false.
    rewrite (schedule_and_report _ _ _ _ _ l) by exact Hl.
    destruct (existsb _ l); eexists; (split; [by eauto|done]).
  - destruct (String.eqb (nth 4 (cin w) EmptyString) "engine").
    + rewrite (schedule_and_report _ _ _ _ _ l) by exact Hl.
      destruct (existsb _ l); eexists; (split; [by eauto|done]).
    + eexists. split; [by eauto|done].
Qed.

Lemma schedule_flow_consumes_session :
  ∃ w',
    (schedule_flow (initial_world session_input) = Ret tt w' ∨
     ∃ e, schedule_flow (initial_world session_input) = Throw e w') ∧
    cin w' = ["Erin"; "555-0177"; "KA07"; "05-01-2025"; "oil"].
Proof.
  destruct (schedule_flow_consumes (initial_world session_input) [])
    as (w' & Hrun & Hcin & _); [reflexivity|].
  exists w'. split; [exact Hrun|exact Hcin].
Defined.
